(** * Exploration distributions of [explore/exploration.h]

    A shallow embedding of the four operations of namespace [exploration]
    (epsilon-greedy, softmax, bag, minimum-probability enforcement) in exact
    arithmetic, and the properties the specification states about them.

    Numbers.  The source computes in [float].  The embedding computes in
    exact arithmetic: rationals [Q] for the three operations that only add,
    multiply, divide and compare (they stay executable), and the reals [R]
    for softmax, which needs [exp].  Rounding is therefore outside the
    model.  Where rounding can do more to the source than move a result by
    a few units in the last place, the theorems on sums and entries carry a
    hypothesis that rules it out: [rounding_safe] keeps the rounded
    [touched_mass] of [enforce_minimum_probability] on the side of 0.999
    that the exact one is on, and [lambda >= 0] keeps every exponent of
    [generate_softmax] at or below 0, where [exp] cannot overflow.
    Buffers over [Q] are compared entry by entry with [Qeq].
    A division by zero, which in the source yields an infinity or a NaN,
    yields [0] in [Q].  The only quotient whose divisor can be zero and
    whose value is then used is the scaling factor of
    [enforce_minimum_probability] on a buffer with a negative entry; the
    theorems about the entries that path leaves assume a buffer without
    one.

    Machine integers.  [uint32_t] and [uint16_t] values are integers [Z]
    (vote counts: [N]) whose wrap-around is written out with [mod].

    Iterator ranges.  A pair of random-access iterators [(first, last)] is a
    [range]: either inverted ([last < first]) or the span of the elements of
    [[first, last)].  An operation returns its status code together with the
    contents of the pdf range after the call. *)

From Stdlib Require Import QArith ZArith NArith List Lia Psatz Bool Reals.
Import ListNotations.

(** ** Status codes *)

Definition S_EXPLORATION_OK : Z := 0.
Definition E_EXPLORATION_BAD_RANGE : Z := 1.
Definition E_EXPLORATION_EMPTY_PDF : Z := 2.

(** ** Iterator ranges *)

Inductive range (A : Type) : Type :=
| Inverted : range A
| Span : list A -> range A.

Arguments Inverted {A}.
Arguments Span {A} _.

(** [last - first] of a range that is not inverted. *)
Definition distance {A : Type} (r : range A) : nat :=
  match r with
  | Inverted => 0
  | Span l => length l
  end.

(** ** Machine integers *)

Definition uint32 (z : Z) : Z := z mod 2 ^ 32.
Definition uint16 (z : Z) : Z := z mod 2 ^ 16.

(** ** Buffers *)

(** Replaces the entry at offset [n] from [first] by its image under [f];
    positions outside the list are not written (the source never addresses
    one). *)
Fixpoint update_at {A : Type} (n : nat) (f : A -> A) (l : list A) : list A :=
  match l, n with
  | [], _ => []
  | x :: t, O => f x :: t
  | x :: t, S k => x :: update_at k f t
  end.

Open Scope Q_scope.

(** Strict comparison of rationals as a boolean. *)
Definition Qlt_bool (a b : Q) : bool := negb (Qle_bool b a).

(** Sum of the entries of a buffer. *)
Fixpoint Qsum (l : list Q) : Q :=
  match l with
  | [] => 0
  | x :: t => x + Qsum t
  end.

(** Entry-wise equality of two buffers. *)
Definition pdf_eq (l1 l2 : list Q) : Prop := Forall2 Qeq l1 l2.


(** ** [generate_epsilon_greedy] *)

Definition generate_epsilon_greedy (epsilon : Q) (top_action : Z)
    (pdf : range Q) : Z * range Q :=
  match pdf with
  | Inverted => (E_EXPLORATION_BAD_RANGE, pdf)
  | Span l =>
    let num_actions := Z.of_nat (length l) in
    if (num_actions =? 0)%Z then (E_EXPLORATION_EMPTY_PDF, pdf)
    else
      let top_action :=
        if (top_action >=? num_actions)%Z
        then uint32 (uint32 num_actions - 1)
        else top_action in
      let prob := epsilon / inject_Z num_actions in
      let l1 := map (fun _ => prob) l in
      let l2 := update_at (Z.to_nat top_action)
                  (fun d => d + (1 - epsilon)) l1 in
      (S_EXPLORATION_OK, Span l2)
  end.

(** ** [generate_bag] *)

(** [std::accumulate(first, last, init)] over the vote counts. *)
Definition accumulate (top_actions : list N) (init : Z) : Z :=
  fold_left (fun acc v => (acc + Z.of_N v)%Z) top_actions init.

(** The mathematical sum of the vote counts, without wrap-around. *)
Fixpoint vote_total (top_actions : list N) : Z :=
  match top_actions with
  | [] => 0
  | v :: t => Z.of_N v + vote_total t
  end.

(** The division loop: pdf and votes advance in lockstep and the loop stops
    at the end of the shorter one; what is left of the pdf is not written. *)
Fixpoint bag_loop (num_models : Z) (t_a : list N) (d : list Q) : list Q :=
  match d, t_a with
  | _ :: d', v :: t_a' =>
      inject_Z (Z.of_N v) / inject_Z num_models :: bag_loop num_models t_a' d'
  | _, _ => d
  end.

Definition generate_bag (top_actions : list N) (pdf : range Q)
    : Z * range Q :=
  match pdf with
  | Inverted => (E_EXPLORATION_BAD_RANGE, pdf)
  | Span [] => (E_EXPLORATION_EMPTY_PDF, pdf)
  | Span ((_ :: rest) as l) =>
    let num_models := uint32 (accumulate top_actions 0) in
    if (num_models =? 0)%Z
    then (S_EXPLORATION_OK, Span (1 :: map (fun _ => 0) rest))
    else (S_EXPLORATION_OK, Span (bag_loop num_models top_actions l))
  end.

(** ** [enforce_minimum_probability] *)

(** The condition under which an entry is raised to the floor. *)
Definition below_floor (min_prob : Q) (update_zero_elements : bool)
    (prob : Q) : bool :=
  (Qlt_bool 0 prob || (Qeq_bool prob 0 && update_zero_elements))
  && Qle_bool prob min_prob.

(** The first loop of the general path, with its three accumulators:
    [touched_mass], [untouched_mass] and the 16-bit [num_actions_touched]. *)
Fixpoint floor_pass (min_prob : Q) (update_zero_elements : bool)
    (d : list Q) (touched_mass untouched_mass : Q) (num_actions_touched : Z)
    : list Q * (Q * Q * Z) :=
  match d with
  | [] => ([], (touched_mass, untouched_mass, num_actions_touched))
  | prob :: d' =>
    if below_floor min_prob update_zero_elements prob
    then
      let (r, acc) :=
        floor_pass min_prob update_zero_elements d'
          (touched_mass + min_prob) untouched_mass
          (uint16 (num_actions_touched + 1)) in
      (min_prob :: r, acc)
    else
      let (r, acc) :=
        floor_pass min_prob update_zero_elements d'
          touched_mass (untouched_mass + prob) num_actions_touched in
      (prob :: r, acc)
  end.

(** [support_size] of the uniform path: one less for every zero entry. *)
Definition support_size (update_zero_elements : bool) (l : list Q) : Z :=
  if update_zero_elements then Z.of_nat (length l)
  else fold_left (fun s d => if Qeq_bool d 0 then (s - 1)%Z else s)
         l (Z.of_nat (length l)).

Definition enforce_minimum_probability (min_prob : Q)
    (update_zero_elements : bool) (pdf : range Q) : Z * range Q :=
  match pdf with
  | Span [] => (E_EXPLORATION_EMPTY_PDF, pdf)
  | Inverted => (E_EXPLORATION_BAD_RANGE, pdf)
  | Span l =>
    let num_actions := Z.of_nat (length l) in
    if Qlt_bool 0.999 min_prob then
      let support_size := support_size update_zero_elements l in
      (S_EXPLORATION_OK,
       Span (map (fun d => if update_zero_elements || Qlt_bool 0 d
                           then 1 / inject_Z support_size else d) l))
    else
      let min_prob := min_prob / inject_Z num_actions in
      let '(l1, (touched_mass, untouched_mass, num_actions_touched)) :=
        floor_pass min_prob update_zero_elements l 0 0 0 in
      if Qlt_bool 0 touched_mass then
        if Qlt_bool 0.999 touched_mass then
          let min_prob :=
            (1 - untouched_mass) / inject_Z num_actions_touched in
          (S_EXPLORATION_OK,
           Span (map (fun prob =>
                        if below_floor min_prob update_zero_elements prob
                        then min_prob else prob) l1))
        else
          let ratio := (1 - touched_mass) / untouched_mass in
          (S_EXPLORATION_OK,
           Span (map (fun d => if Qlt_bool min_prob d then d * ratio else d)
                   l1))
      else (S_EXPLORATION_OK, Span l1)
  end.

Close Scope Q_scope.

(** ** [generate_softmax] *)

Open Scope R_scope.

(** Sum of the entries of a real buffer. *)
Fixpoint Rsum (l : list R) : R :=
  match l with
  | [] => 0
  | x :: t => x + Rsum t
  end.

(** [std::max_element]: the position of the first greatest element, the
    scan keeping [largest] and replacing it when [*largest < *first]. *)
Fixpoint max_element_from (largest : nat) (v_largest : R) (i : nat)
    (l : list R) : nat :=
  match l with
  | [] => largest
  | x :: t =>
    if Rlt_dec v_largest x then max_element_from i x (S i) t
    else max_element_from largest v_largest (S i) t
  end.

(** On an empty range [std::max_element] returns [last], here position 0. *)
Definition max_element (l : list R) : nat :=
  match l with
  | [] => 0%nat
  | x :: t => max_element_from 0 x 1 t
  end.

(** The exponentiation loop: pdf and scores advance in lockstep, [norm]
    accumulates the weights. *)
Fixpoint exp_loop (lambda max_score : R) (s d : list R) (norm : R)
    : list R * R :=
  match d, s with
  | _ :: d', x :: s' =>
    let prob := exp (lambda * (x - max_score)) in
    let (r, n) := exp_loop lambda max_score s' d' (norm + prob) in
    (prob :: r, n)
  | _, _ => (d, norm)
  end.

(** The pdf is returned as the part in front of the (possibly moved)
    [pdf_last] followed by the part behind it. *)
Definition generate_softmax (lambda : R) (scores pdf : range R)
    : Z * range R :=
  match scores, pdf with
  | Inverted, _ | _, Inverted => (E_EXPLORATION_BAD_RANGE, pdf)
  | Span s, Span p =>
    let num_actions_scores := length s in
    let num_actions_pdf := length p in
    let '(s1, front, back) :=
      if negb (num_actions_scores =? num_actions_pdf)%nat then
        let k := Nat.min num_actions_scores num_actions_pdf in
        (firstn k s, firstn k p, map (fun _ => 0) (skipn k p))
      else (s, p, []) in
    if (num_actions_scores =? 0)%nat
    then (E_EXPLORATION_EMPTY_PDF, Span (front ++ back))
    else
      let max_score := nth (max_element s1) s 0 in
      let '(front1, norm) := exp_loop lambda max_score s1 front 0 in
      let front2 := map (fun d => d / norm) front1 in
      (S_EXPLORATION_OK, Span (front2 ++ back))
  end.

Close Scope R_scope.

(** ** Notions used in the statements *)

Open Scope Q_scope.

(** What the first loop of the general path leaves in an entry. *)
Definition raise (min_prob : Q) (update_zero_elements : bool) (prob : Q) : Q :=
  if below_floor min_prob update_zero_elements prob then min_prob else prob.

(** What the scaling loop leaves in an entry. *)
Definition scale (min_prob ratio : Q) (d : Q) : Q :=
  if Qlt_bool min_prob d then d * ratio else d.

(** The mass the first loop adds to [touched_mass]. *)
Definition touched_sum (min_prob : Q) (update_zero_elements : bool)
    (l : list Q) : Q :=
  Qsum (map (fun p => if below_floor min_prob update_zero_elements p
                      then min_prob else 0) l).

(** The mass the first loop adds to [untouched_mass]. *)
Definition untouched_sum (min_prob : Q) (update_zero_elements : bool)
    (l : list Q) : Q :=
  Qsum (map (fun p => if below_floor min_prob update_zero_elements p
                      then 0 else p) l).

(** The number of entries that compare equal to zero. *)
Definition count_zero (l : list Q) : nat :=
  length (filter (fun d => Qeq_bool d 0) l).

(** An entry that takes part in the enforcement: it is positive, or all
    entries do because [update_zero_elements] is set. *)
Definition eligible (update_zero_elements : bool) (prob : Q) : Prop :=
  update_zero_elements = true \/ 0 < prob.


(** C6 as the specification states it, at one input, with the total the
    plain sum of the votes: the call succeeds; a total of 0 gives 1 at
    position 0 and 0 elsewhere; any other total gives [votes[i] / total] at
    the positions of the overlap and leaves the rest of the buffer. *)
Definition bag_claim (votes : list N) (l : list Q) : Prop :=
  exists out,
    generate_bag votes (Span l) = (S_EXPLORATION_OK, Span out) /\
    (vote_total votes = 0%Z -> out = 1 :: repeat 0 (length l - 1)) /\
    (vote_total votes <> 0%Z ->
       (forall i, (i < Nat.min (length votes) (length l))%nat ->
          nth i out 0
          == inject_Z (Z.of_N (nth i votes 0%N))
             / inject_Z (vote_total votes)) /\
       (forall i, (Nat.min (length votes) (length l) <= i)%nat ->
          nth i out 0 = nth i l 0)).


(** Equality of two pdf ranges after a call, entry by entry. *)
Definition range_eq (r1 r2 : range Q) : Prop :=
  match r1, r2 with
  | Inverted, Inverted => True
  | Span l1, Span l2 => pdf_eq l1 l2
  | _, _ => False
  end.

(** C2 as the specification states it, at one input: a second application
    with the same arguments returns the same status and leaves the buffer as
    the first one left it. *)
Definition idempotent_claim (min_prob : Q) (update_zero_elements : bool)
    (l : list Q) : Prop :=
  let once :=
    enforce_minimum_probability min_prob update_zero_elements (Span l) in
  let twice :=
    enforce_minimum_probability min_prob update_zero_elements (snd once) in
  fst twice = fst once /\ range_eq (snd twice) (snd once).


(** What the uniform path leaves in an entry. *)
Definition uniform (update_zero_elements : bool) (c : Q) (d : Q) : Q :=
  if update_zero_elements || Qlt_bool 0 d then c else d.

Close Scope Q_scope.

Open Scope R_scope.




Close Scope R_scope.

(** ** Notions used in the further properties *)

(** The status a pdf range alone determines: inverted, empty, or neither. *)
Definition status_of_range {A : Type} (pdf : range A) : Z :=
  match pdf with
  | Inverted => E_EXPLORATION_BAD_RANGE
  | Span [] => E_EXPLORATION_EMPTY_PDF
  | Span (_ :: _) => S_EXPLORATION_OK
  end.

(** The status the scores range and the pdf range determine for softmax. *)
Definition softmax_status {A : Type} (scores pdf : range A) : Z :=
  match scores, pdf with
  | Inverted, _ => E_EXPLORATION_BAD_RANGE
  | _, Inverted => E_EXPLORATION_BAD_RANGE
  | Span [], Span _ => E_EXPLORATION_EMPTY_PDF
  | Span (_ :: _), Span _ => S_EXPLORATION_OK
  end.

(** The number of positive entries. *)
Definition count_positive (l : list Q) : nat :=
  length (filter (fun d => Qlt_bool 0 d) l).

(** * Properties *)

Open Scope Q_scope.

(** ** Comparisons *)

Lemma Qlt_bool_iff (a b : Q) : Qlt_bool a b = true <-> a < b.
Proof.
  unfold Qlt_bool. rewrite negb_true_iff.
  split; intro H.
  - apply Qnot_le_lt. intro Hle.
    apply Qle_bool_iff in Hle. congruence.
  - destruct (Qle_bool b a) eqn:E; auto.
    apply Qle_bool_iff in E. lra.
Qed.

Lemma Qlt_bool_false (a b : Q) : Qlt_bool a b = false <-> b <= a.
Proof.
  unfold Qlt_bool. rewrite negb_false_iff. apply Qle_bool_iff.
Qed.


Lemma Qeq_bool_false (a b : Q) : Qeq_bool a b = false <-> ~ a == b.
Proof.
  split.
  - intros H E. apply Qeq_bool_iff in E. congruence.
  - intro H. destruct (Qeq_bool a b) eqn:E; auto.
    apply Qeq_bool_iff in E. contradiction.
Qed.

(** ** Buffers *)

Lemma update_at_length {A : Type} (n : nat) (f : A -> A) (l : list A) :
  length (update_at n f l) = length l.
Proof.
  revert n; induction l as [|x t IH]; intros [|k]; simpl; auto.
Qed.

Lemma update_at_nth_same {A : Type} (n : nat) (f : A -> A) (l : list A)
    (d : A) :
  (n < length l)%nat -> nth n (update_at n f l) d = f (nth n l d).
Proof.
  revert n; induction l as [|x t IH]; intros [|k] H; simpl in *;
    try lia; auto.
  apply IH; lia.
Qed.

Lemma update_at_nth_other {A : Type} (n i : nat) (f : A -> A) (l : list A)
    (d : A) :
  i <> n -> nth i (update_at n f l) d = nth i l d.
Proof.
  revert n i; induction l as [|x t IH]; intros [|k] [|j] H; simpl;
    try congruence; auto.
Qed.

Lemma map_const_repeat {A B : Type} (b : B) (l : list A) :
  map (fun _ => b) l = repeat b (length l).
Proof.
  induction l as [|x t IH]; simpl; congruence.
Qed.

Lemma Qsum_app (l1 l2 : list Q) : Qsum (l1 ++ l2) == Qsum l1 + Qsum l2.
Proof.
  induction l1 as [|x t IH]; simpl; [|rewrite IH]; ring.
Qed.

Lemma Qsum_repeat (x : Q) (n : nat) :
  Qsum (repeat x n) == inject_Z (Z.of_nat n) * x.
Proof.
  induction n as [|n IH].
  - simpl. ring.
  - rewrite Nat2Z.inj_succ. unfold Z.succ. rewrite inject_Z_plus.
    simpl repeat. simpl Qsum. rewrite IH. ring.
Qed.

Lemma Qsum_update_at_add (n : nat) (c : Q) (l : list Q) :
  (n < length l)%nat ->
  Qsum (update_at n (fun d => d + c) l) == Qsum l + c.
Proof.
  revert n; induction l as [|x t IH]; intros [|k] H; simpl in *; try lia.
  - ring.
  - rewrite IH by lia. ring.
Qed.

Lemma inject_Z_of_nat_pos (n : nat) : (0 < n)%nat -> 0 < inject_Z (Z.of_nat n).
Proof.
  intro H. change 0 with (inject_Z 0). rewrite <- Zlt_Qlt. lia.
Qed.

(** ** Epsilon-greedy *)

(** The clamp of the source never wraps: when [top_action >= num_actions]
    the 32-bit casts are the identity. *)
Lemma clamp_top_action (top_action : Z) (n : nat) :
  (0 < n)%nat -> (0 <= top_action < 2 ^ 32)%Z ->
  (if (top_action >=? Z.of_nat n)%Z
   then uint32 (uint32 (Z.of_nat n) - 1) else top_action)
  = (if (top_action >=? Z.of_nat n)%Z then Z.of_nat n - 1 else top_action)%Z.
Proof.
  intros Hn Ht. destruct (top_action >=? Z.of_nat n)%Z eqn:E; auto.
  apply Z.geb_le in E. unfold uint32.
  rewrite (Z.mod_small (Z.of_nat n)) by lia.
  apply Z.mod_small. lia.
Qed.

(** The result of [generate_epsilon_greedy] on a non-empty buffer. *)
Lemma generate_epsilon_greedy_ok (epsilon : Q) (top_action : Z)
    (l : list Q) :
  l <> [] -> (0 <= top_action < 2 ^ 32)%Z ->
  let N := length l in
  let top := Z.to_nat (if (top_action >=? Z.of_nat N)%Z
                       then Z.of_nat N - 1 else top_action) in
  let prob := epsilon / inject_Z (Z.of_nat N) in
  (top < N)%nat /\
  generate_epsilon_greedy epsilon top_action (Span l)
  = (S_EXPLORATION_OK,
     Span (update_at top (fun d => d + (1 - epsilon)) (repeat prob N))).
Proof.
  intros Hl Ht N top prob.
  assert (HN : (0 < N)%nat) by (subst N; destruct l; simpl; [congruence|lia]).
  split.
  - subst top. destruct (top_action >=? Z.of_nat N)%Z eqn:E; [lia|].
    rewrite Z.geb_leb in E. apply Z.leb_gt in E. lia.
  - unfold generate_epsilon_greedy.
    destruct (Z.of_nat (length l) =? 0)%Z eqn:E0.
    { apply Z.eqb_eq in E0. fold N in E0. lia. }
    rewrite (clamp_top_action top_action (length l) HN Ht).
    rewrite map_const_repeat. reflexivity.
Qed.

Lemma epsilon_greedy_sum (epsilon : Q) (N top : nat) :
  (top < N)%nat ->
  Qsum (update_at top (fun d => d + (1 - epsilon))
          (repeat (epsilon / inject_Z (Z.of_nat N)) N)) == 1.
Proof.
  intro Htop.
  rewrite Qsum_update_at_add by (rewrite repeat_length; exact Htop).
  rewrite Qsum_repeat.
  assert (Hpos : 0 < inject_Z (Z.of_nat N))
    by (apply inject_Z_of_nat_pos; lia).
  field. lra.
Qed.

(** C7.  For every [epsilon], every 32-bit [top_action] and every pdf buffer
    of length [N > 0], [generate_epsilon_greedy] succeeds; it sets every
    entry to [epsilon / N] and then adds [1 - epsilon] to the entry at
    [top_action], clamped to [N - 1] when [top_action >= N].  The entries of
    the result sum to exactly 1, the clamped top entry is
    [epsilon / N + (1 - epsilon)] and every other entry is [epsilon / N]. *)
Theorem generate_epsilon_greedy_spec (epsilon : Q) (top_action : Z)
    (l : list Q) :
  l <> [] -> (0 <= top_action < 2 ^ 32)%Z ->
  let N := length l in
  let top := Z.to_nat (if (top_action >=? Z.of_nat N)%Z
                       then Z.of_nat N - 1 else top_action) in
  let prob := epsilon / inject_Z (Z.of_nat N) in
  exists out,
    generate_epsilon_greedy epsilon top_action (Span l)
      = (S_EXPLORATION_OK, Span out) /\
    out = update_at top (fun d => d + (1 - epsilon)) (repeat prob N) /\
    length out = N /\
    (top < N)%nat /\
    Qsum out == 1 /\
    nth top out 0 == prob + (1 - epsilon) /\
    (forall i, (i < N)%nat -> i <> top -> nth i out 0 == prob).
Proof.
  intros Hl Ht N top prob.
  destruct (generate_epsilon_greedy_ok epsilon top_action l Hl Ht)
    as [Htop Hgen].
  fold N in Htop, Hgen. fold top in Htop, Hgen. fold prob in Hgen.
  exists (update_at top (fun d => d + (1 - epsilon)) (repeat prob N)).
  split; [exact Hgen|]. split; [reflexivity|].
  rewrite update_at_length, repeat_length.
  split; [reflexivity|]. split; [exact Htop|].
  split; [|split].
  - apply epsilon_greedy_sum. exact Htop.
  - rewrite update_at_nth_same by (rewrite repeat_length; exact Htop).
    rewrite nth_repeat_lt by exact Htop. reflexivity.
  - intros i Hi Hne. rewrite update_at_nth_other by exact Hne.
    rewrite nth_repeat_lt by exact Hi. reflexivity.
Qed.

(** The theorem at [epsilon = 1/10], [top_action = 7] (clamped to 3) and a
    buffer of four entries. *)
Lemma generate_epsilon_greedy_spec_witness :
  exists out,
    generate_epsilon_greedy (1 # 10) 7 (Span [0; 0; 0; 0])
      = (S_EXPLORATION_OK, Span out) /\
    out = update_at 3 (fun d => d + (1 - (1 # 10)))
            (repeat ((1 # 10) / inject_Z 4) 4) /\
    length out = 4%nat /\
    (3 < 4)%nat /\
    Qsum out == 1 /\
    nth 3 out 0 == (1 # 10) / inject_Z 4 + (1 - (1 # 10)) /\
    (forall i, (i < 4)%nat -> i <> 3%nat ->
               nth i out 0 == (1 # 10) / inject_Z 4).
Proof.
  apply (generate_epsilon_greedy_spec (1 # 10) 7 [0; 0; 0; 0]).
  - discriminate.
  - lia.
Defined.

(** ** Bag *)

Lemma accumulate_vote_total (votes : list N) (init : Z) :
  accumulate votes init = (init + vote_total votes)%Z.
Proof.
  unfold accumulate. revert init.
  induction votes as [|v t IH]; intro init; simpl.
  - lia.
  - rewrite IH. lia.
Qed.

Lemma vote_total_nonneg (votes : list N) : (0 <= vote_total votes)%Z.
Proof.
  induction votes as [|v t IH]; simpl; lia.
Qed.

(** Below [2 ^ 32] the 32-bit total of the source is the sum of the votes. *)
Lemma num_models_small (votes : list N) :
  (vote_total votes < 2 ^ 32)%Z ->
  uint32 (accumulate votes 0) = vote_total votes.
Proof.
  intro H. rewrite accumulate_vote_total. unfold uint32. simpl Z.add.
  apply Z.mod_small. pose proof (vote_total_nonneg votes). lia.
Qed.

Lemma bag_loop_length (num_models : Z) (t_a : list N) (d : list Q) :
  length (bag_loop num_models t_a d) = length d.
Proof.
  revert t_a; induction d as [|x d IH]; intros [|v t]; simpl; auto.
Qed.

Lemma bag_loop_nth_front (num_models : Z) (t_a : list N) (d : list Q)
    (i : nat) :
  (i < Nat.min (length t_a) (length d))%nat ->
  nth i (bag_loop num_models t_a d) 0
  = inject_Z (Z.of_N (nth i t_a 0%N)) / inject_Z num_models.
Proof.
  revert t_a i; induction d as [|x d IH]; intros [|v t] [|i] H;
    simpl in *; try lia; auto.
  apply IH. lia.
Qed.

Lemma bag_loop_nth_back (num_models : Z) (t_a : list N) (d : list Q)
    (i : nat) :
  (Nat.min (length t_a) (length d) <= i)%nat ->
  nth i (bag_loop num_models t_a d) 0 = nth i d 0.
Proof.
  revert t_a i; induction d as [|x d IH]; intros [|v t] [|i] H;
    simpl in *; try lia; auto.
  apply IH. lia.
Qed.

Lemma bag_loop_sum (num_models : Z) (t_a : list N) (d : list Q) :
  length t_a = length d ->
  Qsum (bag_loop num_models t_a d)
  == inject_Z (vote_total t_a) / inject_Z num_models.
Proof.
  revert t_a; induction d as [|x d IH]; intros [|v t] H;
    simpl in *; try discriminate.
  - unfold Qdiv. ring.
  - rewrite IH by congruence. rewrite inject_Z_plus.
    unfold Qdiv. ring.
Qed.


Lemma generate_bag_zero (votes : list N) (x : Q) (rest : list Q) :
  uint32 (accumulate votes 0) = 0%Z ->
  generate_bag votes (Span (x :: rest))
  = (S_EXPLORATION_OK, Span (1 :: repeat 0 (length rest))).
Proof.
  intro H. unfold generate_bag. rewrite H. simpl.
  rewrite map_const_repeat. reflexivity.
Qed.

Lemma generate_bag_positive (votes : list N) (l : list Q) :
  l <> [] -> uint32 (accumulate votes 0) <> 0%Z ->
  generate_bag votes (Span l)
  = (S_EXPLORATION_OK,
     Span (bag_loop (uint32 (accumulate votes 0)) votes l)).
Proof.
  intros Hl H. destruct l as [|x rest]; [congruence|].
  unfold generate_bag. apply Z.eqb_neq in H. rewrite H. reflexivity.
Qed.

(** C6 fails when the votes add up to [2 ^ 32] or more: the source keeps
    the total in 32 bits.  Two votes of [2 ^ 31] have total [2 ^ 32], not 0,
    yet the call takes the fallback and returns [[1; 0]] instead of
    [[1/2; 1/2]]. *)
Lemma bag_claim_fails_total_wraps :
  ~ bag_claim [2147483648; 2147483648]%N [0; 0].
Proof.
  intros [out [Hout [_ Hpos]]].
  vm_compute in Hout. injection Hout as Hout. subst out.
  assert (Hne : vote_total [2147483648; 2147483648]%N <> 0%Z)
    by discriminate.
  destruct (Hpos Hne) as [Hfront _].
  assert (H0 : (0 < Nat.min 2 2)%nat) by (simpl; lia).
  specialize (Hfront 0%nat H0). vm_compute in Hfront. discriminate Hfront.
Qed.

(** C6, amended.  For every votes sequence (length [M]) whose total is
    below [2 ^ 32] and every pdf buffer of length [N > 0], [generate_bag]
    succeeds and keeps the length of the buffer: if the sum of the votes
    is 0 the pdf becomes 1 at position 0 and 0 at every other position;
    otherwise every position [i < min M N] holds [votes[i]] divided by the
    sum of the votes and every position in [[min M N, N)] keeps its prior
    contents.  All-zero votes of length 5 with [N = 5] give
    [[1; 0; 0; 0; 0]], and votes [[3; 1; 0]] with [N = 3] give
    [[3/4; 1/4; 0]]. *)
Theorem generate_bag_spec :
  (forall (votes : list N) (l : list Q),
     l <> [] -> (vote_total votes < 2 ^ 32)%Z ->
     bag_claim votes l /\
     distance (snd (generate_bag votes (Span l))) = length l) /\
  (forall a b c d e : Q,
     generate_bag [0; 0; 0; 0; 0]%N (Span [a; b; c; d; e])
     = (S_EXPLORATION_OK, Span [1; 0; 0; 0; 0])) /\
  (forall a b c : Q,
     exists out,
       generate_bag [3; 1; 0]%N (Span [a; b; c])
       = (S_EXPLORATION_OK, Span out) /\
       pdf_eq out [3 # 4; 1 # 4; 0]).
Proof.
  split; [|split].
  - intros votes l Hl Hsmall. unfold bag_claim.
    pose proof (num_models_small votes Hsmall) as Hnm.
    destruct (Z.eq_dec (vote_total votes) 0) as [E|E].
    + destruct l as [|x rest]; [congruence|].
      assert (Hz : uint32 (accumulate votes 0) = 0%Z) by congruence.
      rewrite (generate_bag_zero votes x rest Hz).
      split.
      * exists (1 :: repeat 0 (length rest)).
        split; [reflexivity|]. split; [|congruence].
        intros _. simpl. rewrite Nat.sub_0_r. reflexivity.
      * simpl. rewrite repeat_length. reflexivity.
    + assert (Hz : uint32 (accumulate votes 0) <> 0%Z) by congruence.
      rewrite (generate_bag_positive votes l Hl Hz). rewrite Hnm.
      split.
      * exists (bag_loop (vote_total votes) votes l).
        split; [reflexivity|]. split; [congruence|].
        intros _. split; intros i Hi.
        -- rewrite bag_loop_nth_front by exact Hi. reflexivity.
        -- apply bag_loop_nth_back; exact Hi.
      * simpl. apply bag_loop_length.
  - intros. reflexivity.
  - intros a b c. eexists. split; [reflexivity|].
    repeat constructor.
Qed.

(** The general part of the theorem at votes [[2; 1; 1]] and a buffer of
    three entries. *)
Lemma generate_bag_spec_witness :
  bag_claim [2; 1; 1]%N [0; 0; 0] /\
  distance (snd (generate_bag [2; 1; 1]%N (Span [0; 0; 0]))) = 3%nat.
Proof.
  apply (proj1 generate_bag_spec [2; 1; 1]%N [0; 0; 0]).
  - discriminate.
  - reflexivity.
Defined.

(** C10.  In the zero-total fallback of [generate_bag] every one of the [N]
    pdf positions is written: position 0 holds 1 and positions [1 .. N-1]
    hold 0, whatever the votes length [M] and the prior contents, so also at
    positions at or beyond [M].  Positions in [[min M N, N)] keep their prior
    contents only on the path where the total is not 0. *)
Theorem generate_bag_fallback_writes_all (votes : list N) (l : list Q) :
  l <> [] ->
  let num_models := uint32 (accumulate votes 0) in
  exists out,
    generate_bag votes (Span l) = (S_EXPLORATION_OK, Span out) /\
    length out = length l /\
    (num_models = 0%Z ->
       nth 0 out 0 = 1 /\
       (forall i, (1 <= i < length l)%nat -> nth i out 0 = 0)) /\
    (num_models <> 0%Z ->
       forall i, (Nat.min (length votes) (length l) <= i < length l)%nat ->
         nth i out 0 = nth i l 0).
Proof.
  intros Hl num_models.
  destruct (Z.eq_dec num_models 0) as [E|E].
  - destruct l as [|x rest]; [congruence|].
    exists (1 :: repeat 0 (length rest)).
    split; [apply generate_bag_zero; exact E|].
    split; [simpl; rewrite repeat_length; reflexivity|].
    split; [|congruence].
    intros _. split; [reflexivity|].
    intros [|i] Hi; [lia|]. simpl in *.
    apply nth_repeat_lt. lia.
  - exists (bag_loop num_models votes l).
    split; [apply generate_bag_positive; assumption|].
    split; [apply bag_loop_length|].
    split; [congruence|].
    intros _ i Hi. apply bag_loop_nth_back. lia.
Qed.

(** The theorem at one zero vote and a buffer of three entries: positions 1
    and 2, beyond the votes, are overwritten with 0. *)
Lemma generate_bag_fallback_writes_all_witness :
  exists out,
    generate_bag [0]%N (Span [1 # 3; 1 # 3; 1 # 3])
      = (S_EXPLORATION_OK, Span out) /\
    nth 0 out 0 = 1 /\ nth 1 out 0 = 0 /\ nth 2 out 0 = 0.
Proof.
  destruct (generate_bag_fallback_writes_all [0]%N [1 # 3; 1 # 3; 1 # 3])
    as [out [H1 [_ [H3 _]]]].
  - discriminate.
  - exists out. split; [exact H1|].
    destruct (H3 eq_refl) as [H0 Hi].
    split; [exact H0|].
    split; apply Hi; simpl; lia.
Defined.

Close Scope Q_scope.
Open Scope R_scope.

(** ** Softmax *)




Lemma Rsum_exp_pos (f : R -> R) (l : list R) :
  l <> [] -> 0 < Rsum (map (fun x => exp (f x)) l).
Proof.
  destruct l as [|x t]; [congruence|]. intros _.
  revert x; induction t as [|y t IH]; intro x; simpl.
  - pose proof (exp_pos (f x)). lra.
  - pose proof (exp_pos (f x)). specialize (IH y). simpl in IH. lra.
Qed.

(** *** [std::max_element] *)

Lemma max_element_from_spec (l : list R) (pre : list R) (largest i : nat)
    (v : R) :
  i = length pre ->
  (largest < i)%nat ->
  nth largest pre 0 = v ->
  (forall x, In x pre -> x <= v) ->
  let r := max_element_from largest v i l in
  (r < length (pre ++ l))%nat /\
  (forall x, In x (pre ++ l) -> x <= nth r (pre ++ l) 0).
Proof.
  revert pre largest i v.
  induction l as [|y t IH]; intros pre largest i v Hi Hlt Hv Hmax; simpl.
  - rewrite app_nil_r. split; [lia|].
    intros x Hx. rewrite Hv. apply Hmax; exact Hx.
  - replace (pre ++ y :: t) with ((pre ++ [y]) ++ t)
      by (rewrite <- app_assoc; reflexivity).
    assert (Hlen : S i = length (pre ++ [y]))
      by (rewrite length_app; simpl; lia).
    destruct (Rlt_dec v y) as [Hvy|Hvy].
    + apply IH.
      * exact Hlen.
      * lia.
      * rewrite app_nth2 by lia. rewrite Hi, Nat.sub_diag. reflexivity.
      * intros x Hx. apply in_app_or in Hx. destruct Hx as [Hx|[Hx|[]]].
        -- specialize (Hmax x Hx). lra.
        -- lra.
    + apply IH.
      * exact Hlen.
      * lia.
      * rewrite app_nth1 by lia. exact Hv.
      * intros x Hx. apply in_app_or in Hx. destruct Hx as [Hx|[Hx|[]]].
        -- apply Hmax; exact Hx.
        -- lra.
Qed.

Lemma max_element_spec (l : list R) :
  l <> [] ->
  (max_element l < length l)%nat /\
  (forall x, In x l -> x <= nth (max_element l) l 0).
Proof.
  destruct l as [|x t]; [congruence|]. intros _.
  unfold max_element.
  apply (max_element_from_spec t [x] 0%nat 1%nat x).
  - reflexivity.
  - lia.
  - reflexivity.
  - intros y [Hy|[]]. lra.
Qed.

Lemma max_element_from_shift (c : R) (l : list R) (largest i : nat) (v : R) :
  max_element_from largest (v + c) i (map (fun x => x + c) l)
  = max_element_from largest v i l.
Proof.
  revert largest i v; induction l as [|y t IH]; intros largest i v; simpl.
  - reflexivity.
  - destruct (Rlt_dec (v + c) (y + c)) as [H1|H1];
      destruct (Rlt_dec v y) as [H2|H2]; try lra; apply IH.
Qed.

Lemma max_element_shift (c : R) (l : list R) :
  max_element (map (fun x => x + c) l) = max_element l.
Proof.
  destruct l as [|x t]; simpl; [reflexivity|].
  apply max_element_from_shift.
Qed.

(** *** The two loops *)

Lemma exp_loop_spec (lambda max_score : R) (s d : list R) (norm : R) :
  length s = length d ->
  let w := fun x => exp (lambda * (x - max_score)) in
  exp_loop lambda max_score s d norm = (map w s, norm + Rsum (map w s)).
Proof.
  revert d norm; induction s as [|x s IH]; intros [|y d] norm H;
    simpl in *; try discriminate.
  - f_equal. ring.
  - rewrite IH by congruence. f_equal. ring.
Qed.

(** What is left of the scores and of the pdf after the fallback to the
    shorter length. *)
Lemma softmax_fallback (s p : list R) :
  let k := Nat.min (length s) (length p) in
  (if negb (length s =? length p)%nat
   then (firstn k s, firstn k p, map (fun _ => 0) (skipn k p))
   else (s, p, []))
  = (firstn k s, firstn k p, map (fun _ => 0) (skipn k p)).
Proof.
  intro k. destruct (length s =? length p)%nat eqn:E; simpl; [|reflexivity].
  apply Nat.eqb_eq in E. subst k. rewrite <- E, Nat.min_id.
  rewrite firstn_all. rewrite E. rewrite firstn_all, skipn_all.
  reflexivity.
Qed.

(** The result of [generate_softmax] on a non-empty scores range. *)
Lemma generate_softmax_ok (lambda : R) (s p : list R) :
  s <> [] ->
  let k := Nat.min (length s) (length p) in
  let s1 := firstn k s in
  let max_score := nth (max_element s1) s 0 in
  let w := fun x => exp (lambda * (x - max_score)) in
  generate_softmax lambda (Span s) (Span p)
  = (S_EXPLORATION_OK,
     Span (map (fun d => d / Rsum (map w s1)) (map w s1)
           ++ map (fun _ => 0) (skipn k p))).
Proof.
  intros Hs k s1 max_score w. unfold generate_softmax.
  rewrite softmax_fallback. fold k. fold s1.
  destruct (length s =? 0)%nat eqn:E.
  { apply Nat.eqb_eq in E. destruct s; simpl in E; [congruence|lia]. }
  fold max_score.
  rewrite exp_loop_spec.
  - fold w. rewrite Rplus_0_l. reflexivity.
  - subst s1. rewrite !length_firstn. subst k. lia.
Qed.


Lemma nth_map_in_range (f : R -> R) (l : list R) (i : nat) :
  (i < length l)%nat -> nth i (map f l) 0 = f (nth i l 0).
Proof.
  intro H. rewrite (nth_indep (map f l) 0 (f 0)) by (rewrite length_map; lia).
  apply map_nth.
Qed.

(** The position read for [max_score] lies inside the scores. *)
Lemma max_element_firstn_in_range (s : list R) (k : nat) :
  s <> [] -> (max_element (firstn k s) < length s)%nat.
Proof.
  intro Hs. destruct (firstn k s) as [|y t] eqn:E.
  - simpl. destruct s; simpl; [congruence|lia].
  - assert (Hne : firstn k s <> []) by (rewrite E; discriminate).
    destruct (max_element_spec (firstn k s) Hne) as [Hlt _].
    rewrite <- E. rewrite length_firstn in Hlt. lia.
Qed.

(** C3 (the code departs from it).  [generate_softmax] returns
    [E_EXPLORATION_EMPTY_PDF] exactly when the scores range is empty, and not
    when only the pdf range is: on a non-empty scores range and an empty pdf
    range it returns [S_EXPLORATION_OK] with the empty pdf. *)
Theorem generate_softmax_empty_pdf_status :
  (forall (lambda : R) (s p : list R),
     fst (generate_softmax lambda (Span s) (Span p))
       = E_EXPLORATION_EMPTY_PDF <-> s = []) /\
  (forall (lambda x : R) (s : list R),
     generate_softmax lambda (Span (x :: s)) (Span [])
     = (S_EXPLORATION_OK, Span [])).
Proof.
  split.
  - intros lambda s p. destruct s as [|x s].
    + split; [reflexivity|]. intros _.
      unfold generate_softmax. rewrite softmax_fallback. reflexivity.
    + rewrite generate_softmax_ok by discriminate. simpl.
      split; discriminate.
  - intros lambda x s. reflexivity.
Qed.

Lemma generate_softmax_empty_scores (lambda : R) (p : list R) :
  generate_softmax lambda (Span []) (Span p)
  = (E_EXPLORATION_EMPTY_PDF, Span (repeat 0 (length p))).
Proof.
  unfold generate_softmax. rewrite softmax_fallback.
  simpl. rewrite map_const_repeat. reflexivity.
Qed.

(** C9.  On an empty scores range [generate_softmax] writes 0 into every
    position of the pdf buffer and then returns [E_EXPLORATION_EMPTY_PDF]:
    the buffer [[1; 2]] comes back as [[0; 0]] with the error status. *)
Theorem generate_softmax_empty_scores_zeroes_pdf :
  (forall (lambda : R) (p : list R),
     generate_softmax lambda (Span []) (Span p)
     = (E_EXPLORATION_EMPTY_PDF, Span (repeat 0 (length p)))) /\
  (forall lambda : R,
     generate_softmax lambda (Span []) (Span [1; 2])
     = (E_EXPLORATION_EMPTY_PDF, Span [0; 0])).
Proof.
  split; [exact generate_softmax_empty_scores|].
  intro lambda. rewrite generate_softmax_empty_scores. reflexivity.
Qed.





(** Adding a constant to every score changes nothing, whatever the lengths
    of the two ranges. *)
Lemma generate_softmax_shift (lambda c : R) (s p : list R) :
  generate_softmax lambda (Span (map (fun x => x + c) s)) (Span p)
  = generate_softmax lambda (Span s) (Span p).
Proof.
  destruct s as [|x0 s0] eqn:Es; [reflexivity|].
  rewrite <- Es.
  assert (Hs : s <> []) by (rewrite Es; discriminate).
  assert (Hs' : map (fun x => x + c) s <> [])
    by (rewrite Es; discriminate).
  rewrite (generate_softmax_ok lambda _ p Hs').
  rewrite (generate_softmax_ok lambda s p Hs).
  rewrite length_map, firstn_map, max_element_shift.
  set (k := Nat.min (length s) (length p)).
  rewrite nth_map_in_range by (apply max_element_firstn_in_range; exact Hs).
  assert (Hw : map (fun x => exp (lambda * (x
                      - (nth (max_element (firstn k s)) s 0 + c))))
                 (map (fun x => x + c) (firstn k s))
               = map (fun x => exp (lambda * (x
                      - nth (max_element (firstn k s)) s 0)))
                   (firstn k s)).
  { rewrite map_map. apply map_ext. intro x. f_equal. ring. }
  rewrite Hw. reflexivity.
Qed.

(** C8.  For every [lambda], every constant [c], every scores sequence [s]
    and every pdf buffer of matching length, [generate_softmax] gives the
    same status and the same pdf on [s] and on [s] with [c] added to every
    score. *)
Theorem generate_softmax_shift_invariant (lambda c : R) (s p : list R) :
  length s = length p ->
  generate_softmax lambda (Span (map (fun x => x + c) s)) (Span p)
  = generate_softmax lambda (Span s) (Span p).
Proof.
  intros _. apply generate_softmax_shift.
Qed.

(** The theorem at [lambda = 1], [c = 5] and scores [[0; 1]]. *)
Lemma generate_softmax_shift_invariant_witness :
  generate_softmax 1 (Span (map (fun x => x + 5) [0; 1])) (Span [0; 0])
  = generate_softmax 1 (Span [0; 1]) (Span [0; 0]).
Proof.
  apply (generate_softmax_shift_invariant 1 5 [0; 1] [0; 0]).
  reflexivity.
Defined.

Close Scope R_scope.
Open Scope Q_scope.

(** ** Minimum probability *)

Lemma nth_map_lt {A B : Type} (f : A -> B) (l : list A) (i : nat) (a : A)
    (b : B) :
  (i < length l)%nat -> nth i (map f l) b = f (nth i l a).
Proof.
  intro H. rewrite (nth_indep (map f l) b (f a)) by (rewrite length_map; lia).
  apply map_nth.
Qed.

Lemma pdf_eq_refl (l : list Q) : pdf_eq l l.
Proof.
  induction l; constructor; [reflexivity | assumption].
Qed.

Lemma pdf_eq_map (f : Q -> Q) (l : list Q) :
  (forall p, In p l -> f p == p) -> pdf_eq (map f l) l.
Proof.
  induction l as [|x t IH]; intro H; simpl; constructor.
  - apply H. left; reflexivity.
  - apply IH. intros p Hp. apply H. right; exact Hp.
Qed.

Lemma pdf_eq_Qsum (l1 l2 : list Q) : pdf_eq l1 l2 -> Qsum l1 == Qsum l2.
Proof.
  induction 1 as [|x y t1 t2 Hxy _ IH]; simpl.
  - reflexivity.
  - rewrite Hxy, IH. reflexivity.
Qed.

Section FirstLoop.
Variable min_prob : Q.
Variable update_zero_elements : bool.

Let below := below_floor min_prob update_zero_elements.
Let T := touched_sum min_prob update_zero_elements.
Let U := untouched_sum min_prob update_zero_elements.

Lemma below_floor_true (p : Q) :
  below_floor min_prob update_zero_elements p = true ->
  0 <= p /\ p <= min_prob /\ eligible update_zero_elements p.
Proof.
  unfold below_floor, eligible. intro H.
  apply andb_true_iff in H. destruct H as [He Hle].
  apply Qle_bool_iff in Hle.
  apply orb_true_iff in He. destruct He as [He|He].
  - apply Qlt_bool_iff in He. repeat split; auto. lra.
  - apply andb_true_iff in He. destruct He as [Hz Hu].
    apply Qeq_bool_iff in Hz. repeat split; auto. lra.
Qed.


Lemma floor_pass_spec (l : list Q) (tm um : Q) (nt : Z) :
  let '(l1, (tm', um', _)) :=
    floor_pass min_prob update_zero_elements l tm um nt in
  l1 = map (raise min_prob update_zero_elements) l /\
  tm' == tm + T l /\
  um' == um + U l.
Proof.
  revert tm um nt. subst T U. unfold touched_sum, untouched_sum, raise.
  induction l as [|p t IH]; intros tm um nt; simpl.
  - repeat split; ring.
  - destruct (below_floor min_prob update_zero_elements p).
    + specialize (IH (tm + min_prob) um (uint16 (nt + 1))).
      destruct (floor_pass _ _ t _ _ _) as [r [[tm' um'] nt']].
      destruct IH as [Hl [Ht Hu]].
      split; [congruence|]. split.
      * rewrite Ht. ring.
      * rewrite Hu. ring.
    + specialize (IH tm (um + p) nt).
      destruct (floor_pass _ _ t _ _ _) as [r [[tm' um'] nt']].
      destruct IH as [Hl [Ht Hu]].
      split; [congruence|]. split.
      * rewrite Ht. ring.
      * rewrite Hu. ring.
Qed.

Lemma touched_sum_cons (p : Q) (l : list Q) :
  T (p :: l) == (if below p then min_prob else 0) + T l.
Proof. reflexivity. Qed.

Lemma untouched_sum_cons (p : Q) (l : list Q) :
  U (p :: l) == (if below p then 0 else p) + U l.
Proof. reflexivity. Qed.

Lemma touched_sum_nonneg (l : list Q) : 0 <= T l.
Proof.
  induction l as [|p t IH].
  - unfold T, touched_sum. simpl. lra.
  - rewrite touched_sum_cons. subst below. cbv beta.
    destruct (below_floor min_prob update_zero_elements p) eqn:E.
    + apply below_floor_true in E. lra.
    + lra.
Qed.

Lemma touched_sum_le (l : list Q) :
  0 <= min_prob -> T l <= inject_Z (Z.of_nat (length l)) * min_prob.
Proof.
  intro Hf. induction l as [|p t IH].
  - unfold T, touched_sum. simpl. change (inject_Z 0) with 0. lra.
  - rewrite touched_sum_cons. simpl length.
    rewrite Nat2Z.inj_succ. unfold Z.succ. rewrite inject_Z_plus.
    destruct (below p); change (inject_Z 1) with 1; nra.
Qed.

Lemma touched_sum_pos_floor (l : list Q) : 0 < T l -> 0 < min_prob.
Proof.
  induction l as [|p t IH].
  - unfold T, touched_sum. simpl. lra.
  - rewrite touched_sum_cons. subst below. cbv beta.
    destruct (below_floor min_prob update_zero_elements p) eqn:E.
    + apply below_floor_true in E. intro H.
      destruct (Qlt_le_dec 0 min_prob) as [Hp|Hn]; [exact Hp|].
      apply IH. lra.
    + intro H. apply IH. lra.
Qed.



Lemma Qsum_raise (l : list Q) :
  Qsum (map (raise min_prob update_zero_elements) l) == T l + U l.
Proof.
  induction l as [|p t IH].
  - unfold T, U, touched_sum, untouched_sum. simpl. lra.
  - rewrite touched_sum_cons, untouched_sum_cons. simpl. rewrite IH.
    unfold raise. subst below. cbv beta.
    destruct (below_floor min_prob update_zero_elements p); ring.
Qed.


(** When nothing was added to [touched_mass] the first loop changed no
    value. *)
Lemma raise_noop (l : list Q) :
  T l <= 0 -> pdf_eq (map (raise min_prob update_zero_elements) l) l.
Proof.
  induction l as [|p t IH]; intro H; simpl; constructor.
  - rewrite touched_sum_cons in H. pose proof (touched_sum_nonneg t) as Ht.
    unfold raise. subst below. cbv beta in H.
    destruct (below_floor min_prob update_zero_elements p) eqn:E.
    + apply below_floor_true in E. lra.
    + reflexivity.
  - apply IH. rewrite touched_sum_cons in H.
    pose proof (touched_sum_nonneg t) as Ht. subst below. cbv beta in H.
    destruct (below_floor min_prob update_zero_elements p) eqn:E.
    + apply below_floor_true in E. lra.
    + lra.
Qed.

End FirstLoop.

Lemma inject_Z_length_pos (l : list Q) :
  l <> [] -> 0 < inject_Z (Z.of_nat (length l)).
Proof.
  intro H. apply inject_Z_of_nat_pos.
  destruct l; simpl; [congruence|lia].
Qed.

(** In exact arithmetic the first loop of the general path cannot allocate
    more than [min_prob].  (The rounded sum of the source can end above it
    by the rounding of its additions; see [rounding_safe].) *)
Lemma touched_sum_le_min_prob (min_prob : Q) (uz : bool) (l : list Q) :
  l <> [] ->
  let f := min_prob / inject_Z (Z.of_nat (length l)) in
  0 < touched_sum f uz l -> touched_sum f uz l <= min_prob.
Proof.
  intros Hl f HT.
  pose proof (inject_Z_length_pos l Hl) as HN.
  pose proof (touched_sum_pos_floor f uz l HT) as Hf.
  pose proof (touched_sum_le f uz l (Qlt_le_weak _ _ Hf)) as Hle.
  assert (E : inject_Z (Z.of_nat (length l)) * f == min_prob).
  { subst f. field. lra. }
  rewrite E in Hle. exact Hle.
Qed.

(** The result of the general path. *)
Lemma enforce_general_path (min_prob : Q) (uz : bool) (l : list Q) :
  l <> [] -> min_prob <= 0.999 ->
  let f := min_prob / inject_Z (Z.of_nat (length l)) in
  exists out,
    enforce_minimum_probability min_prob uz (Span l)
      = (S_EXPLORATION_OK, Span out) /\
    ((0 < touched_sum f uz l /\
      exists ratio,
        ratio == (1 - touched_sum f uz l) / untouched_sum f uz l /\
        out = map (scale f ratio) (map (raise f uz) l))
     \/ (touched_sum f uz l <= 0 /\ out = map (raise f uz) l)).
Proof.
  intros Hl Hm. cbv zeta.
  unfold enforce_minimum_probability.
  destruct l as [|x t] eqn:El; [congruence|]. rewrite <- El in *.
  clear x t El.
  assert (H999 : Qlt_bool 0.999 min_prob = false)
    by (apply Qlt_bool_false; exact Hm).
  rewrite H999.
  set (f := min_prob / inject_Z (Z.of_nat (length l))).
  pose proof (floor_pass_spec f uz l 0 0 0) as Hfp.
  destruct (floor_pass f uz l 0 0 0) as [l1 [[tm um] nt]].
  destruct Hfp as [Hl1 [Htm Hum]].
  rewrite Qplus_0_l in Htm, Hum.
  destruct (Qlt_bool 0 tm) eqn:E1.
  - apply Qlt_bool_iff in E1. rewrite Htm in E1.
    pose proof (touched_sum_le_min_prob min_prob uz l Hl E1) as Hle.
    fold f in Hle.
    assert (E2 : Qlt_bool 0.999 tm = false).
    { apply Qlt_bool_false. rewrite Htm. lra. }
    rewrite E2. eexists. split; [reflexivity|].
    left. split; [exact E1|].
    exists ((1 - tm) / um). split.
    + rewrite Htm, Hum. reflexivity.
    + rewrite Hl1. reflexivity.
  - apply Qlt_bool_false in E1. rewrite Htm in E1.
    eexists. split; [reflexivity|].
    right. split; [exact E1 | exact Hl1].
Qed.









(** *** The uniform path *)

Lemma enforce_uniform_path (min_prob : Q) (uz : bool) (l : list Q) :
  l <> [] -> 0.999 < min_prob ->
  enforce_minimum_probability min_prob uz (Span l)
  = (S_EXPLORATION_OK,
     Span (map (uniform uz (1 / inject_Z (support_size uz l))) l)).
Proof.
  intros Hl Hm. unfold enforce_minimum_probability.
  destruct l as [|x t] eqn:El; [congruence|]. rewrite <- El in *.
  apply Qlt_bool_iff in Hm. rewrite Hm. reflexivity.
Qed.

Lemma count_zero_le_length (l : list Q) : (count_zero l <= length l)%nat.
Proof.
  unfold count_zero. apply filter_length_le.
Qed.

Lemma support_size_fold (l : list Q) (a : Z) :
  fold_left (fun s d => if Qeq_bool d 0 then (s - 1)%Z else s) l a
  = (a - Z.of_nat (count_zero l))%Z.
Proof.
  unfold count_zero. revert a; induction l as [|x t IH]; intro a; simpl.
  - lia.
  - rewrite IH. destruct (Qeq_bool x 0); simpl length; lia.
Qed.

Lemma support_size_false (l : list Q) :
  support_size false l
  = (Z.of_nat (length l) - Z.of_nat (count_zero l))%Z.
Proof.
  unfold support_size. apply support_size_fold.
Qed.

(** A positive entry is in the support, so the support is not empty. *)
Lemma support_size_positive (uz : bool) (l : list Q) (d : Q) :
  In d l -> 0 < d -> (1 <= support_size uz l)%Z.
Proof.
  intros Hin Hd. destruct uz.
  - unfold support_size. destruct l; [destruct Hin | simpl length; lia].
  - rewrite support_size_false.
    assert (H : (count_zero l < length l)%nat).
    { unfold count_zero. induction l as [|x t IH]; [destruct Hin|].
      simpl. destruct Hin as [->|Hin].
      - assert (E : Qeq_bool d 0 = false) by (apply Qeq_bool_false; lra).
        rewrite E. pose proof (filter_length_le (fun d => Qeq_bool d 0) t).
        lia.
      - specialize (IH Hin). destruct (Qeq_bool x 0); simpl; lia. }
    lia.
Qed.

Lemma uniform_share_positive (uz : bool) (l : list Q) (d : Q) :
  In d l -> 0 < d -> 0 < 1 / inject_Z (support_size uz l).
Proof.
  intros Hin Hd.
  pose proof (support_size_positive uz l d Hin Hd) as Hs.
  assert (H : 0 < inject_Z (support_size uz l)).
  { change 0 with (inject_Z 0). rewrite <- Zlt_Qlt. lia. }
  apply Qlt_shift_div_l; [exact H | lra].
Qed.

Lemma count_zero_uniform (c : Q) (l : list Q) :
  (forall d, In d l -> 0 < d -> 0 < c) ->
  count_zero (map (uniform false c) l) = count_zero l.
Proof.
  unfold count_zero, uniform. simpl orb.
  induction l as [|x t IH]; intro H; [reflexivity|].
  assert (IH' := IH (fun d Hd => H d (or_intror Hd))).
  simpl. destruct (Qlt_bool 0 x) eqn:E.
  - apply Qlt_bool_iff in E.
    pose proof (H x (or_introl eq_refl) E) as Hc.
    assert (E1 : Qeq_bool c 0 = false) by (apply Qeq_bool_false; lra).
    assert (E2 : Qeq_bool x 0 = false) by (apply Qeq_bool_false; lra).
    rewrite E1, E2. exact IH'.
  - destruct (Qeq_bool x 0); simpl; rewrite IH'; reflexivity.
Qed.

Lemma support_size_uniform (uz : bool) (l : list Q) :
  support_size uz (map (uniform uz (1 / inject_Z (support_size uz l))) l)
  = support_size uz l.
Proof.
  destruct uz.
  - unfold support_size. rewrite length_map. reflexivity.
  - rewrite (support_size_false (map _ l)), length_map.
    rewrite count_zero_uniform.
    + symmetry. apply support_size_false.
    + intros d Hin Hd. exact (uniform_share_positive false l d Hin Hd).
Qed.

Lemma uniform_twice (uz : bool) (c : Q) (l : list Q) :
  (forall d, In d l -> 0 < d -> 0 < c) ->
  map (uniform uz c) (map (uniform uz c) l) = map (uniform uz c) l.
Proof.
  intro H. rewrite map_map. apply map_ext_in. intros d Hin.
  unfold uniform. destruct uz; simpl; [reflexivity|].
  destruct (Qlt_bool 0 d) eqn:E.
  - apply Qlt_bool_iff in E. pose proof (H d Hin E) as Hc.
    apply Qlt_bool_iff in Hc. rewrite Hc. reflexivity.
  - rewrite E. reflexivity.
Qed.

(** The uniform path is idempotent on every buffer. *)
Lemma enforce_uniform_idempotent (min_prob : Q) (uz : bool) (l : list Q) :
  l <> [] -> 0.999 < min_prob ->
  exists once,
    enforce_minimum_probability min_prob uz (Span l)
      = (S_EXPLORATION_OK, Span once) /\
    enforce_minimum_probability min_prob uz (Span once)
      = (S_EXPLORATION_OK, Span once).
Proof.
  intros Hl Hm. eexists. split; [apply enforce_uniform_path; assumption|].
  rewrite enforce_uniform_path.
  - rewrite support_size_uniform. rewrite uniform_twice; [reflexivity|].
    intros d Hin Hd. exact (uniform_share_positive uz l d Hin Hd).
  - destruct l; [congruence | discriminate].
  - exact Hm.
Qed.

(** *** Length *)

Lemma enforce_minimum_probability_length (min_prob : Q) (uz : bool)
    (l : list Q) :
  exists status out,
    enforce_minimum_probability min_prob uz (Span l) = (status, Span out) /\
    length out = length l /\
    (status = S_EXPLORATION_OK <-> l <> []).
Proof.
  destruct l as [|x t] eqn:El.
  - exists E_EXPLORATION_EMPTY_PDF, []. repeat split; try discriminate.
    congruence.
  - rewrite <- El. assert (Hl : l <> []) by (rewrite El; discriminate).
    destruct (Qlt_le_dec 0.999 min_prob) as [Hm|Hm].
    + eexists _, _. split; [apply enforce_uniform_path; assumption|].
      split; [apply length_map|]. split; auto.
    + destruct (enforce_general_path min_prob uz l Hl Hm)
        as [out [Hout [[_ [ratio [_ Ho]]]|[_ Ho]]]];
        exists S_EXPLORATION_OK, out; (split; [exact Hout|]);
        subst out; rewrite ?length_map; split; auto; split; auto.
Qed.

(** *** A pdf that satisfies the floor *)

Lemma enforce_noop_on_floor (min_prob : Q) (uz : bool) (x : list Q) :
  x <> [] -> min_prob <= 0.999 -> Qsum x == 1 ->
  (forall p, In p x -> eligible uz p ->
     min_prob / inject_Z (Z.of_nat (length x)) <= p) ->
  exists out,
    enforce_minimum_probability min_prob uz (Span x)
      = (S_EXPLORATION_OK, Span out) /\
    pdf_eq out x.
Proof.
  intros Hx Hm Hsum Hfloor.
  set (f := min_prob / inject_Z (Z.of_nat (length x))) in *.
  destruct (enforce_general_path min_prob uz x Hx Hm)
    as [out [Hout [[HT [ratio [Hr Ho]]]|[HT Ho]]]];
    fold f in HT, Ho; exists out; (split; [exact Hout|]); subst out.
  - fold f in Hr.
    assert (Hraise : forall p, In p x -> raise f uz p == p).
    { intros p Hp. unfold raise.
      destruct (below_floor f uz p) eqn:E; [|reflexivity].
      apply below_floor_true in E. destruct E as [_ [Hle He]].
      specialize (Hfloor p Hp He). lra. }
    pose proof (pdf_eq_Qsum _ _ (pdf_eq_map _ x Hraise)) as Hs.
    rewrite Qsum_raise, Hsum in Hs.
    pose proof (touched_sum_le_min_prob min_prob uz x Hx HT) as HTm.
    fold f in HTm.
    assert (HU : untouched_sum f uz x == 1 - touched_sum f uz x) by lra.
    assert (Hratio : ratio == 1).
    { rewrite Hr, HU. field. lra. }
    rewrite map_map. apply pdf_eq_map. intros p Hp.
    unfold scale. destruct (Qlt_bool f (raise f uz p)).
    + rewrite Hratio, (Hraise p Hp). ring.
    + apply Hraise. exact Hp.
  - apply raise_noop. exact HT.
Qed.

(** C2 fails on a pdf: with [min_prob = 9/10] and [update_zero_elements]
    set, the pdf [[69/100; 31/100; 0]] becomes [[483/1000; 217/1000; 3/10]]
    and a second application turns that into [[2/5; 3/10; 3/10]]. *)
Lemma idempotent_claim_fails_scaled_entry :
  ~ idempotent_claim (9 # 10) true [69 # 100; 31 # 100; 0].
Proof.
  unfold idempotent_claim. vm_compute.
  intros [_ H]. inversion H as [|a b t1 t2 Hab Ht]; subst.
  discriminate Hab.
Qed.

(** C2, amended.  When the first application of
    [enforce_minimum_probability] succeeds, a second application with the
    same arguments succeeds and leaves every entry as the first left it,
    provided [min_prob > 0.999] (the uniform path), or the buffer passed in
    has no negative entry and the result of the first application sums to 1
    and has no eligible entry below [min_prob / N].  (An entry that the
    first application scaled to or below [min_prob / N] is raised by the
    second, which then scales again.) *)
Theorem enforce_minimum_probability_idempotent (min_prob : Q) (uz : bool)
    (l once : list Q) :
  enforce_minimum_probability min_prob uz (Span l)
    = (S_EXPLORATION_OK, Span once) ->
  (0.999 < min_prob
   \/ (Forall (fun p => 0 <= p) l /\
       Qsum once == 1 /\
       forall p, In p once -> eligible uz p ->
         min_prob / inject_Z (Z.of_nat (length once)) <= p)) ->
  exists twice,
    enforce_minimum_probability min_prob uz (Span once)
      = (S_EXPLORATION_OK, Span twice) /\
    pdf_eq twice once.
Proof.
  intros Honce Hcase.
  destruct (enforce_minimum_probability_length min_prob uz l)
    as [st [out [Hrun [Hlen Hst]]]].
  rewrite Honce in Hrun. injection Hrun as Hs Ho. subst st out.
  assert (Hl : l <> []) by (apply Hst; reflexivity).
  assert (Hne : once <> []).
  { destruct once; [|discriminate]. destruct l; [congruence|discriminate]. }
  destruct (Qlt_le_dec 0.999 min_prob) as [Hm|Hm].
  - destruct (enforce_uniform_idempotent min_prob uz l Hl Hm)
      as [once' [H1 H2]].
    rewrite Honce in H1. injection H1 as H1. subst once'.
    exists once. split; [exact H2 | apply pdf_eq_refl].
  - destruct Hcase as [Hc|[_ [Hsum Hfloor]]]; [lra|].
    apply enforce_noop_on_floor; assumption.
Qed.

(** The amended theorem on the general path: [min_prob = 9/10] and the pdf
    [[6/10; 4/10]], which becomes [[11/20; 9/20]] and satisfies the floor
    [9/20]. *)
Lemma enforce_minimum_probability_idempotent_witness :
  exists twice,
    enforce_minimum_probability (9 # 10) false (Span [660 # 1200; 9 # 20])
      = (S_EXPLORATION_OK, Span twice) /\
    pdf_eq twice [660 # 1200; 9 # 20].
Proof.
  apply (enforce_minimum_probability_idempotent (9 # 10) false
           [6 # 10; 4 # 10]).
  - reflexivity.
  - right. split; [repeat constructor; discriminate|].
    split; [reflexivity|].
    intros p [<-|[<-|[]]] _; unfold Qle; simpl; lia.
Defined.

(** ** The invariants on success *)





(** *** Epsilon-greedy *)



(** *** Bag *)



(** *** Minimum probability *)





Close Scope Q_scope.
Open Scope R_scope.

(** *** Softmax *)



Close Scope R_scope.
Open Scope Q_scope.




(** * Further properties *)

(** ** Status codes and errors *)

(** X1.  For [generate_epsilon_greedy], [generate_bag] and
    [enforce_minimum_probability] the status depends on the pdf range
    alone, not on the numeric arguments or the votes:
    [E_EXPLORATION_BAD_RANGE] for an inverted range,
    [E_EXPLORATION_EMPTY_PDF] for an empty one, [S_EXPLORATION_OK]
    otherwise.  When the status is not [S_EXPLORATION_OK] nothing has been
    written to the buffer. *)
Theorem status_of_pdf_range_alone (epsilon : Q) (top_action : Z)
    (votes : list N) (min_prob : Q) (uz : bool) (pdf : range Q) :
  let r1 := generate_epsilon_greedy epsilon top_action pdf in
  let r2 := generate_bag votes pdf in
  let r3 := enforce_minimum_probability min_prob uz pdf in
  (fst r1 = status_of_range pdf /\
   fst r2 = status_of_range pdf /\
   fst r3 = status_of_range pdf) /\
  (fst r1 <> S_EXPLORATION_OK -> snd r1 = pdf) /\
  (fst r2 <> S_EXPLORATION_OK -> snd r2 = pdf) /\
  (fst r3 <> S_EXPLORATION_OK -> snd r3 = pdf).
Proof.
  destruct pdf as [|[|x t]]; cbv zeta.
  - repeat split; reflexivity.
  - repeat split; reflexivity.
  - assert (H1 : fst (generate_epsilon_greedy epsilon top_action
                        (Span (x :: t))) = S_EXPLORATION_OK).
    { unfold generate_epsilon_greedy.
      destruct (Z.of_nat (length (x :: t)) =? 0)%Z eqn:E; [|reflexivity].
      apply Z.eqb_eq in E. simpl length in E. lia. }
    assert (H2 : fst (generate_bag votes (Span (x :: t)))
                 = S_EXPLORATION_OK).
    { unfold generate_bag.
      destruct (uint32 (accumulate votes 0) =? 0)%Z; reflexivity. }
    assert (H3 : fst (enforce_minimum_probability min_prob uz
                        (Span (x :: t))) = S_EXPLORATION_OK).
    { destruct (enforce_minimum_probability_length min_prob uz (x :: t))
        as [st [out [Hrun [_ Hst]]]].
      rewrite Hrun. simpl. apply Hst. discriminate. }
    repeat split; try assumption; intro H; contradiction.
Qed.

(** ** Epsilon-greedy *)

(** X2.  With [epsilon = 0] the result is 1 at the clamped top action and
    0 everywhere else; with [epsilon = 1] it is [1 / N] everywhere,
    whatever the top action. *)
Theorem generate_epsilon_greedy_extremes (top_action : Z) (l : list Q) :
  l <> [] -> (0 <= top_action < 2 ^ 32)%Z ->
  let N := length l in
  let top := Z.to_nat (if (top_action >=? Z.of_nat N)%Z
                       then Z.of_nat N - 1 else top_action) in
  (exists out,
     generate_epsilon_greedy 0 top_action (Span l)
       = (S_EXPLORATION_OK, Span out) /\
     nth top out 0 == 1 /\
     forall i, (i < N)%nat -> i <> top -> nth i out 0 == 0) /\
  (exists out,
     generate_epsilon_greedy 1 top_action (Span l)
       = (S_EXPLORATION_OK, Span out) /\
     forall i, (i < N)%nat -> nth i out 0 == 1 / inject_Z (Z.of_nat N)).
Proof.
  intros Hl Ht N top. split.
  - destruct (generate_epsilon_greedy_ok 0 top_action l Hl Ht)
      as [Htop Hgen].
    fold N in Htop, Hgen. fold top in Htop, Hgen.
    eexists. split; [exact Hgen|]. split.
    + rewrite update_at_nth_same by (rewrite repeat_length; exact Htop).
      rewrite nth_repeat_lt by exact Htop. unfold Qdiv. ring.
    + intros i Hi Hne. rewrite update_at_nth_other by exact Hne.
      rewrite nth_repeat_lt by exact Hi. unfold Qdiv. ring.
  - destruct (generate_epsilon_greedy_ok 1 top_action l Hl Ht)
      as [Htop Hgen].
    fold N in Htop, Hgen. fold top in Htop, Hgen.
    eexists. split; [exact Hgen|].
    intros i Hi. destruct (Nat.eq_dec i top) as [->|Hne].
    + rewrite update_at_nth_same by (rewrite repeat_length; exact Htop).
      rewrite nth_repeat_lt by exact Htop. ring.
    + rewrite update_at_nth_other by exact Hne.
      rewrite nth_repeat_lt by exact Hi. reflexivity.
Qed.

(** The theorem at a buffer of three entries and [top_action = 1]. *)
Lemma generate_epsilon_greedy_extremes_witness :
  (exists out,
     generate_epsilon_greedy 0 1 (Span [5; 5; 5])
       = (S_EXPLORATION_OK, Span out) /\
     nth 1 out 0 == 1 /\
     forall i, (i < 3)%nat -> i <> 1%nat -> nth i out 0 == 0) /\
  (exists out,
     generate_epsilon_greedy 1 1 (Span [5; 5; 5])
       = (S_EXPLORATION_OK, Span out) /\
     forall i, (i < 3)%nat -> nth i out 0 == 1 / inject_Z 3).
Proof.
  apply (generate_epsilon_greedy_extremes 1 [5; 5; 5]).
  - discriminate.
  - lia.
Defined.

(** X3.  When [epsilon <= 1] no entry of the result exceeds the entry at
    the clamped top action, and when [epsilon < 1] every other entry is
    strictly smaller. *)
Theorem generate_epsilon_greedy_mode (epsilon : Q) (top_action : Z)
    (l : list Q) :
  l <> [] -> (0 <= top_action < 2 ^ 32)%Z -> epsilon <= 1 ->
  let N := length l in
  let top := Z.to_nat (if (top_action >=? Z.of_nat N)%Z
                       then Z.of_nat N - 1 else top_action) in
  exists out,
    generate_epsilon_greedy epsilon top_action (Span l)
      = (S_EXPLORATION_OK, Span out) /\
    (forall i, (i < N)%nat -> nth i out 0 <= nth top out 0) /\
    (epsilon < 1 ->
     forall i, (i < N)%nat -> i <> top -> nth i out 0 < nth top out 0).
Proof.
  intros Hl Ht He N top.
  destruct (generate_epsilon_greedy_ok epsilon top_action l Hl Ht)
    as [Htop Hgen].
  fold N in Htop, Hgen. fold top in Htop, Hgen.
  eexists. split; [exact Hgen|].
  assert (Ht' : nth top
                  (update_at top (fun d => d + (1 - epsilon))
                     (repeat (epsilon / inject_Z (Z.of_nat N)) N)) 0
                == epsilon / inject_Z (Z.of_nat N) + (1 - epsilon)).
  { rewrite update_at_nth_same by (rewrite repeat_length; exact Htop).
    rewrite nth_repeat_lt by exact Htop. reflexivity. }
  split.
  - intros i Hi. rewrite Ht'. destruct (Nat.eq_dec i top) as [->|Hne].
    + rewrite update_at_nth_same by (rewrite repeat_length; exact Htop).
      rewrite nth_repeat_lt by exact Htop. lra.
    + rewrite update_at_nth_other by exact Hne.
      rewrite nth_repeat_lt by exact Hi. lra.
  - intros Hlt i Hi Hne. rewrite Ht'.
    rewrite update_at_nth_other by exact Hne.
    rewrite nth_repeat_lt by exact Hi. lra.
Qed.

(** The theorem at [epsilon = 1/10], [top_action = 0] and three entries. *)
Lemma generate_epsilon_greedy_mode_witness :
  exists out,
    generate_epsilon_greedy (1 # 10) 0 (Span [0; 0; 0])
      = (S_EXPLORATION_OK, Span out) /\
    (forall i, (i < 3)%nat -> nth i out 0 <= nth 0 out 0) /\
    ((1 # 10) < 1 ->
     forall i, (i < 3)%nat -> i <> 0%nat -> nth i out 0 < nth 0 out 0).
Proof.
  apply (generate_epsilon_greedy_mode (1 # 10) 0 [0; 0; 0]).
  - discriminate.
  - lia.
  - discriminate.
Defined.



(** ** Bag *)

Lemma vote_total_scale (k : N) (votes : list N) :
  vote_total (map (N.mul k) votes) = (Z.of_N k * vote_total votes)%Z.
Proof.
  induction votes as [|v t IH]; simpl.
  - lia.
  - rewrite IH, N2Z.inj_mul. lia.
Qed.

Lemma bag_loop_scale (k : N) (T : Z) (votes : list N) (d : list Q) :
  (0 < k)%N -> (0 < T)%Z ->
  pdf_eq (bag_loop (Z.of_N k * T) (map (N.mul k) votes) d)
         (bag_loop T votes d).
Proof.
  intros Hk HT. revert votes.
  induction d as [|x d IH]; intros [|v t]; simpl;
    try (apply pdf_eq_refl).
  constructor; [|apply IH].
  rewrite N2Z.inj_mul, !inject_Z_mult.
  assert (H1 : 0 < inject_Z (Z.of_N k)).
  { change 0 with (inject_Z 0). rewrite <- Zlt_Qlt. lia. }
  assert (H2 : 0 < inject_Z T).
  { change 0 with (inject_Z 0). rewrite <- Zlt_Qlt. lia. }
  field. split; lra.
Qed.

(** X5.  Multiplying every vote by one factor [k > 0] changes nothing, as
    long as the scaled total stays below [2 ^ 32]: [generate_bag] returns
    the same status and the same entries. *)
Theorem generate_bag_scale_invariant (k : N) (votes : list N)
    (pdf : range Q) :
  (0 < k)%N -> (Z.of_N k * vote_total votes < 2 ^ 32)%Z ->
  fst (generate_bag (map (N.mul k) votes) pdf) = fst (generate_bag votes pdf)
  /\ range_eq (snd (generate_bag (map (N.mul k) votes) pdf))
              (snd (generate_bag votes pdf)).
Proof.
  intros Hk Hbound.
  pose proof (vote_total_nonneg votes) as Hnn.
  assert (Hsmall : (vote_total votes < 2 ^ 32)%Z) by nia.
  destruct pdf as [|[|x rest]].
  { split; [reflexivity | exact I]. }
  { split; [reflexivity | constructor]. }
  unfold generate_bag.
  rewrite (num_models_small votes Hsmall).
  rewrite (num_models_small (map (N.mul k) votes))
    by (rewrite vote_total_scale; exact Hbound).
  rewrite vote_total_scale.
  destruct (Z.eq_dec (vote_total votes) 0) as [E|E].
  - rewrite E, Z.mul_0_r. simpl. split; [reflexivity|]. apply pdf_eq_refl.
  - assert (E' : (Z.of_N k * vote_total votes)%Z <> 0%Z) by nia.
    apply Z.eqb_neq in E, E'. rewrite E, E'. simpl fst. simpl snd.
    split; [reflexivity|]. unfold range_eq.
    apply bag_loop_scale; [exact Hk|]. apply Z.eqb_neq in E. lia.
Qed.

(** The theorem at [k = 3] and votes [[3; 1; 0]]. *)
Lemma generate_bag_scale_invariant_witness :
  fst (generate_bag (map (N.mul 3) [3; 1; 0]%N) (Span [0; 0; 0]))
  = fst (generate_bag [3; 1; 0]%N (Span [0; 0; 0]))
  /\ range_eq (snd (generate_bag (map (N.mul 3) [3; 1; 0]%N)
                      (Span [0; 0; 0])))
              (snd (generate_bag [3; 1; 0]%N (Span [0; 0; 0]))).
Proof.
  apply (generate_bag_scale_invariant 3 [3; 1; 0]%N (Span [0; 0; 0])).
  - reflexivity.
  - reflexivity.
Defined.

Lemma bag_loop_firstn (num_models : Z) (t_a : list N) (d : list Q) :
  bag_loop num_models t_a d
  = bag_loop num_models (firstn (length d) t_a) d.
Proof.
  revert t_a; induction d as [|x d IH]; intros [|v t]; simpl;
    try reflexivity.
  rewrite <- IH. reflexivity.
Qed.

Lemma vote_total_firstn_le (n : nat) (votes : list N) :
  (vote_total (firstn n votes) <= vote_total votes)%Z.
Proof.
  revert n; induction votes as [|v t IH]; intros [|n]; simpl; try lia.
  - pose proof (vote_total_nonneg t). lia.
  - specialize (IH n). lia.
Qed.

Lemma bag_loop_bounded (num_models : Z) (t_a : list N) (d : list Q) :
  (0 < num_models)%Z -> (vote_total t_a <= num_models)%Z ->
  (length d <= length t_a)%nat ->
  Forall (fun p => 0 <= p <= 1) (bag_loop num_models t_a d).
Proof.
  intro Hn. revert t_a; induction d as [|x d IH]; intros [|v t] Ht Hlen;
    simpl in *; try lia; constructor.
  - pose proof (vote_total_nonneg t) as Hnn.
    assert (Hv : 0 <= inject_Z (Z.of_N v)).
    { change 0 with (inject_Z 0). rewrite <- Zle_Qle. lia. }
    assert (Hm : 0 < inject_Z num_models).
    { change 0 with (inject_Z 0). rewrite <- Zlt_Qlt. lia. }
    assert (Hle : inject_Z (Z.of_N v) <= inject_Z num_models).
    { rewrite <- Zle_Qle. lia. }
    split.
    + apply Qle_shift_div_l; [exact Hm | lra].
    + apply Qle_shift_div_r; [exact Hm | lra].
  - apply IH; [|lia]. lia.
Qed.

(** X6.  With at least as many votes as pdf entries and a total vote count
    in (0, 2 ^ 32), [generate_bag] overwrites the whole buffer with a
    sub-distribution: every entry lies in [0, 1] and the entries sum to the
    share of the votes cast for the first [N] actions, which is at most 1
    (and is 1 only when the votes beyond the buffer carry no weight). *)
Theorem generate_bag_subdistribution (votes : list N) (l : list Q) :
  l <> [] -> (length l <= length votes)%nat ->
  (0 < vote_total votes < 2 ^ 32)%Z ->
  exists out,
    generate_bag votes (Span l) = (S_EXPLORATION_OK, Span out) /\
    Forall (fun p => 0 <= p <= 1) out /\
    Qsum out == inject_Z (vote_total (firstn (length l) votes))
                / inject_Z (vote_total votes) /\
    Qsum out <= 1.
Proof.
  intros Hl Hlen [Hpos Hsmall].
  pose proof (num_models_small votes Hsmall) as Hnm.
  assert (Hnz : uint32 (accumulate votes 0) <> 0%Z) by lia.
  eexists. split; [apply generate_bag_positive; assumption|].
  rewrite Hnm.
  assert (HT : 0 < inject_Z (vote_total votes)).
  { change 0 with (inject_Z 0). rewrite <- Zlt_Qlt. exact Hpos. }
  assert (Hsum : Qsum (bag_loop (vote_total votes) votes l)
                 == inject_Z (vote_total (firstn (length l) votes))
                    / inject_Z (vote_total votes)).
  { rewrite bag_loop_firstn. apply bag_loop_sum.
    rewrite length_firstn. lia. }
  split; [|split].
  - apply bag_loop_bounded; [exact Hpos | lia | exact Hlen].
  - exact Hsum.
  - rewrite Hsum. apply Qle_shift_div_r; [exact HT|].
    rewrite Qmult_1_l. rewrite <- Zle_Qle. apply vote_total_firstn_le.
Qed.

(** The theorem at votes [[2; 1; 1]] and a buffer of two entries, which
    becomes [[1/2; 1/4]]. *)
Lemma generate_bag_subdistribution_witness :
  exists out,
    generate_bag [2; 1; 1]%N (Span [0; 0]) = (S_EXPLORATION_OK, Span out) /\
    Forall (fun p => 0 <= p <= 1) out /\
    Qsum out == inject_Z (vote_total (firstn 2 [2; 1; 1]%N))
                / inject_Z (vote_total [2; 1; 1]%N) /\
    Qsum out <= 1.
Proof.
  apply (generate_bag_subdistribution [2; 1; 1]%N [0; 0]).
  - discriminate.
  - simpl. lia.
  - simpl. lia.
Defined.

(** ** Minimum probability *)

Lemma support_size_count_positive (l : list Q) :
  Forall (fun p => 0 <= p) l ->
  support_size false l = Z.of_nat (count_positive l).
Proof.
  intro Hl. rewrite support_size_false. unfold count_zero, count_positive.
  induction Hl as [|x t Hx _ IH]; [reflexivity|].
  simpl filter.
  destruct (Qlt_bool 0 x) eqn:E.
  - apply Qlt_bool_iff in E.
    assert (E1 : Qeq_bool x 0 = false) by (apply Qeq_bool_false; lra).
    rewrite E1. simpl length. rewrite !Nat2Z.inj_succ. lia.
  - apply Qlt_bool_false in E.
    assert (E1 : Qeq_bool x 0 = true) by (apply Qeq_bool_iff; lra).
    rewrite E1. simpl length. rewrite !Nat2Z.inj_succ. lia.
Qed.

(** X8.  On the uniform path ([min_prob > 0.999]) with
    [update_zero_elements] set, every buffer of length [N > 0], pdf or
    not, becomes [1 / N] everywhere.  With the flag unset and no negative
    entry, every positive entry becomes [1 / k], [k] the number of
    positive entries, and every zero entry stays as it is. *)
Theorem enforce_uniform_result (min_prob : Q) (l : list Q) :
  l <> [] -> 0.999 < min_prob ->
  let N := length l in
  enforce_minimum_probability min_prob true (Span l)
    = (S_EXPLORATION_OK, Span (repeat (1 / inject_Z (Z.of_nat N)) N)) /\
  (Forall (fun p => 0 <= p) l ->
   exists out,
     enforce_minimum_probability min_prob false (Span l)
       = (S_EXPLORATION_OK, Span out) /\
     forall i, (i < N)%nat ->
       (0 < nth i l 0 ->
        nth i out 0 = 1 / inject_Z (Z.of_nat (count_positive l))) /\
       (nth i l 0 == 0 -> nth i out 0 = nth i l 0)).
Proof.
  intros Hl Hm N. split.
  - rewrite (enforce_uniform_path min_prob true l Hl Hm).
    unfold support_size, uniform. simpl orb. cbv iota.
    rewrite map_const_repeat. reflexivity.
  - intro Hnn. eexists.
    split; [apply enforce_uniform_path; assumption|].
    intros i Hi. rewrite (nth_map_lt _ l i 0 0) by exact Hi.
    rewrite (support_size_count_positive l Hnn). unfold uniform.
    simpl orb. split; intro H.
    + apply Qlt_bool_iff in H. rewrite H. reflexivity.
    + assert (E : Qlt_bool 0 (nth i l 0) = false)
        by (apply Qlt_bool_false; lra).
      rewrite E. reflexivity.
Qed.

(** The theorem at [min_prob = 1] and the buffer [[1; 0; 0; 0]]. *)
Lemma enforce_uniform_result_witness :
  enforce_minimum_probability 1 true (Span [1; 0; 0; 0])
    = (S_EXPLORATION_OK, Span (repeat (1 / inject_Z 4) 4)) /\
  (Forall (fun p => 0 <= p) [1; 0; 0; 0] ->
   exists out,
     enforce_minimum_probability 1 false (Span [1; 0; 0; 0])
       = (S_EXPLORATION_OK, Span out) /\
     forall i, (i < 4)%nat ->
       (0 < nth i [1; 0; 0; 0] 0 ->
        nth i out 0
        = 1 / inject_Z (Z.of_nat (count_positive [1; 0; 0; 0]))) /\
       (nth i [1; 0; 0; 0] 0 == 0 -> nth i out 0 = nth i [1; 0; 0; 0] 0)).
Proof.
  apply (enforce_uniform_result 1 [1; 0; 0; 0]).
  - discriminate.
  - reflexivity.
Defined.






Close Scope Q_scope.
Open Scope R_scope.

(** ** Softmax *)

(** X12.  The status of [generate_softmax] depends on the two ranges
    alone: [E_EXPLORATION_BAD_RANGE] when either is inverted (checked
    before emptiness, and then nothing is written),
    [E_EXPLORATION_EMPTY_PDF] when the scores are empty, and
    [S_EXPLORATION_OK] otherwise, whatever [lambda] and the scores are. *)
Theorem generate_softmax_status (lambda : R) (scores pdf : range R) :
  fst (generate_softmax lambda scores pdf) = softmax_status scores pdf /\
  (fst (generate_softmax lambda scores pdf) = E_EXPLORATION_BAD_RANGE ->
   snd (generate_softmax lambda scores pdf) = pdf).
Proof.
  destruct scores as [|[|x s]]; destruct pdf as [|p];
    try (split; reflexivity).
  - rewrite generate_softmax_empty_scores. simpl.
    split; [reflexivity | discriminate].
  - rewrite generate_softmax_ok by discriminate. simpl.
    split; [reflexivity | discriminate].
Qed.



(** The result on non-empty scores and a non-empty pdf, with the greatest
    score read inside the overlap. *)
Lemma generate_softmax_overlap (lambda : R) (s p : list R) :
  s <> [] -> p <> [] ->
  let k := Nat.min (length s) (length p) in
  let s1 := firstn k s in
  let max_score := nth (max_element s1) s1 0 in
  let w := fun x => exp (lambda * (x - max_score)) in
  (0 < k)%nat /\ length s1 = k /\ s1 <> [] /\
  In max_score s1 /\ (forall x, In x s1 -> x <= max_score) /\
  0 < Rsum (map w s1) /\
  generate_softmax lambda (Span s) (Span p)
  = (S_EXPLORATION_OK,
     Span (map (fun d => d / Rsum (map w s1)) (map w s1)
           ++ repeat 0 (length p - k))).
Proof.
  intros Hs Hp k s1 max_score w.
  assert (Hk : (0 < k)%nat).
  { subst k. destruct s; [congruence|]. destruct p; [congruence|].
    simpl. lia. }
  assert (Hlen : length s1 = k).
  { subst s1. rewrite length_firstn. subst k. lia. }
  assert (Hs1 : s1 <> []).
  { intro E. rewrite E in Hlen. simpl in Hlen. lia. }
  destruct (max_element_spec s1 Hs1) as [Hidx Hmax].
  split; [exact Hk|]. split; [exact Hlen|]. split; [exact Hs1|].
  split; [apply nth_In; exact Hidx|]. split; [exact Hmax|].
  split.
  { apply (Rsum_exp_pos (fun x => lambda * (x - max_score))). exact Hs1. }
  rewrite (generate_softmax_ok lambda s p Hs). fold k. fold s1.
  assert (E : nth (max_element s1) s 0 = max_score).
  { subst max_score.
    change (nth (max_element s1) s1 0)
      with (nth (max_element s1) (firstn k s) 0).
    rewrite nth_firstn.
    rewrite Hlen in Hidx. apply Nat.ltb_lt in Hidx. rewrite Hidx.
    reflexivity. }
  rewrite E. fold w.
  rewrite map_const_repeat, length_skipn. reflexivity.
Qed.



(** X14.  With scores and pdf of different lengths, [generate_softmax]
    does what the call on the two ranges cut to the overlap
    [k = min M N] does, and fills the rest of the pdf with 0: scores
    beyond the pdf take no part (not even in the greatest score) and
    pdf positions beyond the scores get probability 0. *)
Theorem generate_softmax_truncates (lambda : R) (s p : list R) :
  s <> [] -> p <> [] ->
  let k := Nat.min (length s) (length p) in
  exists q,
    generate_softmax lambda (Span (firstn k s)) (Span (firstn k p))
      = (S_EXPLORATION_OK, Span q) /\
    length q = k /\
    generate_softmax lambda (Span s) (Span p)
      = (S_EXPLORATION_OK, Span (q ++ repeat 0 (length p - k))).
Proof.
  intros Hs Hp k.
  destruct (generate_softmax_overlap lambda s p Hs Hp)
    as [Hk [Hlen [Hs1 [_ [_ [_ Hgen]]]]]].
  fold k in Hk, Hlen, Hs1, Hgen.
  assert (Hlenp : length (firstn k p) = k).
  { rewrite length_firstn. subst k. lia. }
  assert (Hp1 : firstn k p <> []).
  { intro E. rewrite E in Hlenp. simpl in Hlenp. lia. }
  destruct (generate_softmax_overlap lambda (firstn k s) (firstn k p)
              Hs1 Hp1) as [_ [_ [_ [_ [_ [_ Hgen1]]]]]].
  rewrite Hlen, Hlenp, Nat.min_id, Nat.sub_diag in Hgen1.
  rewrite firstn_firstn, Nat.min_id in Hgen1.
  simpl repeat in Hgen1. rewrite app_nil_r in Hgen1.
  eexists. split; [exact Hgen1|].
  split; [rewrite !length_map; exact Hlen | exact Hgen].
Qed.

(** The theorem at three scores and a pdf of five entries. *)
Lemma generate_softmax_truncates_witness :
  exists q,
    generate_softmax 1 (Span (firstn 3 [1; 2; 3]))
      (Span (firstn 3 [0; 0; 0; 9; 9]))
      = (S_EXPLORATION_OK, Span q) /\
    length q = 3%nat /\
    generate_softmax 1 (Span [1; 2; 3]) (Span [0; 0; 0; 9; 9])
      = (S_EXPLORATION_OK, Span (q ++ repeat 0 (5 - 3))).
Proof.
  apply (generate_softmax_truncates 1 [1; 2; 3] [0; 0; 0; 9; 9]).
  - discriminate.
  - discriminate.
Defined.











Close Scope R_scope.
Open Scope Q_scope.

(** ** Epsilon-greedy: what the result depends on *)

(** X18.  The result of [generate_epsilon_greedy] depends on the buffer
    only through its length and on [top_action] only through its clamped
    value: two calls with the same [epsilon], buffers of one length and
    top actions with the same [min top_action (N - 1)] return the same
    status and the same buffer.  In particular every [top_action >= N - 1]
    selects the last action. *)
Theorem generate_epsilon_greedy_clamped_inputs (epsilon : Q) (t t' : Z)
    (l l' : list Q) :
  length l = length l' ->
  (0 <= t < 2 ^ 32)%Z -> (0 <= t' < 2 ^ 32)%Z ->
  Z.min t (Z.of_nat (length l) - 1) = Z.min t' (Z.of_nat (length l) - 1) ->
  generate_epsilon_greedy epsilon t (Span l)
  = generate_epsilon_greedy epsilon t' (Span l').
Proof.
  intros Hlen Ht Ht' Hmin.
  destruct l as [|x r] eqn:El.
  { destruct l'; [reflexivity | discriminate]. }
  rewrite <- El in *.
  assert (Hl : l <> []) by (rewrite El; discriminate).
  assert (Hl' : l' <> []).
  { intros ->. rewrite El in Hlen. discriminate. }
  destruct (generate_epsilon_greedy_ok epsilon t l Hl Ht) as [_ H1].
  destruct (generate_epsilon_greedy_ok epsilon t' l' Hl' Ht') as [_ H2].
  rewrite H1, H2, <- Hlen.
  assert (E : forall z,
             (if (z >=? Z.of_nat (length l))%Z
              then Z.of_nat (length l) - 1 else z)%Z
             = Z.min z (Z.of_nat (length l) - 1)).
  { intro z. destruct (z >=? Z.of_nat (length l))%Z eqn:Ez.
    - apply Z.geb_le in Ez. lia.
    - rewrite Z.geb_leb in Ez. apply Z.leb_gt in Ez. lia. }
  rewrite !E, Hmin. reflexivity.
Qed.

(** The theorem at top actions 2 and 9 on buffers of three entries. *)
Lemma generate_epsilon_greedy_clamped_inputs_witness :
  generate_epsilon_greedy (1 # 4) 2 (Span [0; 0; 0])
  = generate_epsilon_greedy (1 # 4) 9 (Span [1; 2; 3]).
Proof.
  apply (generate_epsilon_greedy_clamped_inputs (1 # 4) 2 9
           [0; 0; 0] [1; 2; 3]).
  - reflexivity.
  - lia.
  - lia.
  - reflexivity.
Defined.
